(** * legacy_sample: bounded string copy and guarded division

    A shallow embedding of [src/src/legacy_sample.cpp] and the properties of
    its two functions, [copy_cstr] and [safe_div].

    Modelling conventions.
    - [int] is the 32-bit two's-complement type; a value is a [Z] inside
      [INT_MIN .. INT_MAX].
    - [std::size_t] is the 64-bit unsigned type; a value is a [Z] inside
      [0 .. SIZE_MAX] and subtraction wraps modulo [2^64].
    - Memory is a finite map from block identifiers to byte arrays (one
      block per object); a non-null pointer is a block and an offset into
      it, so two pointers into the same block alias.
    - A function returns an [option]: [None] stands for an execution whose
      behaviour the language leaves undefined (an access outside an
      object, a [memcpy] between overlapping ranges, a quotient that does
      not fit the result type). *)

From Stdlib Require Import ZArith Lia Strings.Byte.
From stdpp Require Import base option list gmap.

Local Open Scope Z_scope.

(** ** Machine integers *)

Module Int.

Definition INT_MIN : Z := - 2 ^ 31.
Definition INT_MAX : Z := 2 ^ 31 - 1.

(** [is_int z]: [z] is representable in [int]. *)
Definition is_int (z : Z) : Prop := INT_MIN <= z <= INT_MAX.

Definition representable (z : Z) : bool := (INT_MIN <=? z) && (z <=? INT_MAX).

(** The built-in [a / b] on [int]: the algebraic quotient with the
    fractional part discarded when it is representable; undefined for a zero
    divisor and for a quotient outside [int]. *)
Definition int_div (a b : Z) : option Z :=
  if b =? 0 then None
  else
    let q := Z.quot a b in
    if representable q then Some q else None.

End Int.

Module Size.

Definition SIZE_MAX : Z := 2 ^ 64 - 1.

(** [is_size_t z]: [z] is representable in [std::size_t]. *)
Definition is_size_t (z : Z) : Prop := 0 <= z <= SIZE_MAX.

(** Unsigned subtraction, wrapping. *)
Definition size_sub (a b : Z) : Z := (a - b) mod 2 ^ 64.

End Size.

Export Int Size.

(** ** Memory *)

Definition NUL : byte := x00.

#[global] Instance byte_eq_decision : EqDecision byte := Byte.byte_eq_dec.

Arguments byte_eq_decision : simpl never.

Definition block : Type := nat.

Inductive ptr : Type :=
  | nullptr
  | Ptr (b : block) (ofs : nat).

Arguments Ptr (b ofs)%_nat.

#[global] Instance ptr_eq_decision : EqDecision ptr.
Proof. solve_decision. Defined.

Abbreviation mem := (gmap block (list byte)).

(** [p + i] *)
Definition ptr_add (p : ptr) (i : Z) : ptr :=
  match p with
  | nullptr => nullptr
  | Ptr b o => Ptr b (o + Z.to_nat i)
  end.

(** [splice bs o data] overwrites [bs] from offset [o] on with [data]. *)
Definition splice (bs : list byte) (o : nat) (data : list byte) : list byte :=
  take o bs ++ data ++ drop (o + length data) bs.

(** Reading [*p]. *)
Definition load (m : mem) (p : ptr) : option byte :=
  match p with
  | nullptr => None
  | Ptr b o => bs ← m !! b; bs !! o
  end.

(** Reading the [k] bytes at [p]. *)
Definition load_bytes (m : mem) (p : ptr) (k : nat) : option (list byte) :=
  match p with
  | nullptr => None
  | Ptr b o =>
      bs ← m !! b;
      if decide (o + k ≤ length bs)%nat then Some (take k (drop o bs)) else None
  end.

(** [*p = c] *)
Definition store (m : mem) (p : ptr) (c : byte) : option mem :=
  match p with
  | nullptr => None
  | Ptr b o =>
      bs ← m !! b;
      if decide (o < length bs)%nat then Some (<[b := <[o := c]> bs]> m) else None
  end.

(** Writing [data] at [p]. *)
Definition store_bytes (m : mem) (p : ptr) (data : list byte) : option mem :=
  match p with
  | nullptr => None
  | Ptr b o =>
      bs ← m !! b;
      if decide (o + length data ≤ length bs)%nat
      then Some (<[b := splice bs o data]> m)
      else None
  end.

(** [overlap p k q k']: the [k] bytes at [p] and the [k'] bytes at [q]
    share a byte. *)
Definition overlap (p : ptr) (k : nat) (q : ptr) (k' : nat) : Prop :=
  match p, q with
  | Ptr b o, Ptr b' o' => b = b' ∧ (o < o' + k')%nat ∧ (o' < o + k)%nat
  | _, _ => False
  end.

#[global] Instance overlap_decision p k q k' : Decision (overlap p k q k').
Proof. destruct p, q; simpl; apply _. Defined.

(** ** The C library functions the code calls *)

(** The offset of the first terminator in [bs]; none before the end of the
    object is a read out of bounds. *)
Fixpoint scan_nul (bs : list byte) : option nat :=
  match bs with
  | [] => None
  | c :: bs' => if decide (c = NUL) then Some 0%nat else S <$> scan_nul bs'
  end.

(** [std::strlen(s)].  An object is smaller than [SIZE_MAX], so the length
    is returned as it is. *)
Definition strlen (m : mem) (s : ptr) : option Z :=
  match s with
  | nullptr => None
  | Ptr b o => bs ← m !! b; Z.of_nat <$> scan_nul (drop o bs)
  end.

(** [std::memcpy(dst, src, n)]: both ranges must lie inside their objects
    and must not overlap. *)
Definition memcpy (m : mem) (dst src : ptr) (n : Z) : option mem :=
  let k := Z.to_nat n in
  data ← load_bytes m src k;
  if decide (overlap dst k src k) then None
  else store_bytes m dst data.

(** ** [copy_cstr] *)

(** <<
    std::size_t copy_cstr(char* dst, std::size_t dst_size, const char* src) {
      if (dst == nullptr || dst_size == 0) return 0;
      if (src == nullptr) {
        dst[0] = '\0';
        return 0;
      }

      std::size_t n = std::strlen(src);
      if (n >= dst_size) n = dst_size - 1;  // keep room for '\0'
      std::memcpy(dst, src, n);
      dst[n] = '\0';
      return n;
    }
    >>
    The result is the returned count and the memory after the call. *)
Definition copy_cstr (m : mem) (dst : ptr) (dst_size : Z) (src : ptr)
  : option (Z * mem) :=
  if bool_decide (dst = nullptr) || (dst_size =? 0) then Some (0, m)
  else if bool_decide (src = nullptr) then
    m' ← store m (ptr_add dst 0) NUL;
    Some (0, m')
  else
    n ← strlen m src;
    let n := if n >=? dst_size then size_sub dst_size 1 else n in
    m1 ← memcpy m dst src n;
    m2 ← store m1 (ptr_add dst n) NUL;
    Some (n, m2).

(** ** [safe_div] *)

(** <<
    int safe_div(int a, int b) {
      if (b == 0) return 0;
      return a / b;
    }
    >> *)
Definition safe_div (a b : Z) : option Z :=
  if b =? 0 then Some 0
  else int_div a b.

(** ** Vocabulary of the specification *)

(** [valid_buffer m p cap]: [p] points to [cap] addressable slots. *)
Definition valid_buffer (m : mem) (p : ptr) (cap : Z) : Prop :=
  is_Some (load_bytes m p (Z.to_nat cap)).

(** [cstring_at m p s]: at [p] the memory holds the text [s], which has no
    terminator inside, followed by a terminator. *)
Definition cstring_at (m : mem) (p : ptr) (s : list byte) : Prop :=
  (NUL ∉ s) ∧ load_bytes m p (S (length s)) = Some (s ++ [NUL]).

(** [in_buffer p cap q]: [q] is one of the [cap] slots at [p]. *)
Definition in_buffer (p : ptr) (cap : Z) (q : ptr) : Prop :=
  match p, q with
  | Ptr b o, Ptr b' o' => b = b' ∧ (o ≤ o' < o + Z.to_nat cap)%nat
  | _, _ => False
  end.

(** [copied s cap]: the number of units of the text [s] that fit a buffer of
    [cap] slots beside the terminator, as a count of list elements. *)
Definition copied (s : list byte) (cap : Z) : nat :=
  Z.to_nat (Z.min (Z.of_nat (length s)) (cap - 1)).

(** [source_ok m dst cap src]: the call reads and copies inside the
    language's rules: [src] is null, or it points to a text whose part to
    copy does not overlap the slots it is copied to. *)
Definition source_ok (m : mem) (dst : ptr) (cap : Z) (src : ptr) : Prop :=
  src = nullptr ∨
  ∃ s, cstring_at m src s
       ∧ ¬ overlap dst (copied s cap) src (copied s cap).

(** [source_apart m dst cap src]: [src] is null, or it points to a text
    that, terminator included, shares no byte with the slots of [dst] that
    the call writes (the copied units and the terminator). *)
Definition source_apart (m : mem) (dst : ptr) (cap : Z) (src : ptr) : Prop :=
  src = nullptr ∨
  ∃ s, cstring_at m src s
       ∧ ¬ overlap dst (S (copied s cap)) src (S (length s)).

(** ** The scenarios of the test suite *)

Module Scenario.

Definition xxx : list byte := ["x"; "x"; "x"; x00]%byte.
Definition abc : list byte := ["a"; "b"; "c"; x00]%byte.
Definition abcdef : list byte := ["a"; "b"; "c"; "d"; "e"; "f"; x00]%byte.

(** [char buf[4] = {'x','x','x','\0'}] in block 0, the literals in blocks 1
    and 2. *)
Definition m0 : mem := {[ 0%nat := xxx; 1%nat := abc; 2%nat := abcdef ]}.

Definition buf : ptr := Ptr 0 0.
Definition lit_abc : ptr := Ptr 1 0.
Definition lit_abcdef : ptr := Ptr 2 0.

(** [char buf[5] = "abcd"] alone, for calls whose source points into the
    destination. *)
Definition abcd : list byte := ["a"; "b"; "c"; "d"; x00]%byte.
Definition m_alias : mem := {[ 0%nat := abcd ]}.
Definition m_alias1 : mem := {[ 0%nat := ["c"; "d"; x00; "d"; x00]%byte ]}.
Definition m_alias2 : mem := {[ 0%nat := [x00; "d"; x00; "d"; x00]%byte ]}.

End Scenario.

(** * Proofs *)

(** ** The test suite, run on the model *)

(** [SafeDiv_ZeroDivisor_ReturnsZero] *)
Example test_safe_div_zero : safe_div 10 0 = Some 0.
Proof. reflexivity. Qed.

(** [CopyCstr_NullDstOrZeroSize_DoesNothing] *)
Example test_null_dst :
  copy_cstr Scenario.m0 nullptr 10 Scenario.lit_abc = Some (0, Scenario.m0).
Proof. reflexivity. Qed.

Example test_zero_size :
  copy_cstr Scenario.m0 Scenario.buf 0 Scenario.lit_abc = Some (0, Scenario.m0)
  ∧ load Scenario.m0 Scenario.buf = Some "x"%byte.
Proof. split; reflexivity. Qed.

(** [CopyCstr_AlwaysNullTerminates_WhenSizePositive] *)
Example test_truncates :
  copy_cstr Scenario.m0 Scenario.buf 4 Scenario.lit_abcdef
  = Some (3, <[0%nat := Scenario.abc]> Scenario.m0).
Proof. reflexivity. Qed.

(** A source that fits is copied whole. *)
Example test_fits :
  copy_cstr Scenario.m0 (Ptr 2 0) 7 Scenario.lit_abc
  = Some (3, <[2%nat := ["a"; "b"; "c"; x00; "e"; "f"; x00]%byte]> Scenario.m0).
Proof. reflexivity. Qed.

(** A destination with fewer slots than the stated capacity, a source
    without a terminator in its object, and a copy onto itself are outside
    the language's rules. *)
Example test_short_buffer :
  copy_cstr Scenario.m0 Scenario.buf 8 Scenario.lit_abcdef = None.
Proof. reflexivity. Qed.

Example test_unterminated :
  copy_cstr {[ 0%nat := Scenario.xxx; 1%nat := ["a"; "b"]%byte ]}
    Scenario.buf 4 (Ptr 1 0) = None.
Proof. reflexivity. Qed.

Example test_overlap :
  copy_cstr Scenario.m_alias (Ptr 0 0) 5 (Ptr 0 1) = None.
Proof. reflexivity. Qed.

Example test_int_div :
  int_div 7 2 = Some 3 ∧ int_div (-7) 2 = Some (-3) ∧ int_div 7 (-2) = Some (-3)
  ∧ int_div 7 0 = None ∧ int_div INT_MIN (-1) = None.
Proof. repeat split; reflexivity. Qed.

(** ** Facts about [int] *)

Lemma representable_is_int (z : Z) : representable z = true ↔ is_int z.
Proof.
  unfold representable, is_int.
  rewrite andb_true_iff, !Z.leb_le. tauto.
Qed.

Lemma INT_MIN_val : INT_MIN = -2147483648.
Proof. reflexivity. Qed.

Lemma INT_MAX_val : INT_MAX = 2147483647.
Proof. reflexivity. Qed.

(** Truncating division never grows the magnitude of the dividend. *)
Lemma quot_abs_le (a b : Z) : b ≠ 0 → Z.abs (Z.quot a b) <= Z.abs a.
Proof.
  intros Hb.
  rewrite <- Z.quot_abs by assumption.
  assert (0 <= Z.abs a) by lia.
  assert (0 < Z.abs b) by lia.
  rewrite Z.quot_div_nonneg by lia.
  apply Z.div_le_upper_bound; nia.
Qed.

Lemma quot_representable (a b : Z) :
  is_int a → b ≠ 0 → ¬ (a = INT_MIN ∧ b = -1) → is_int (Z.quot a b).
Proof.
  unfold is_int. rewrite INT_MIN_val, INT_MAX_val.
  intros Ha Hb Hne.
  pose proof (quot_abs_le a b Hb) as Habs.
  destruct (Z.eq_dec a (-2147483648)) as [-> | Hamin]; [| lia].
  assert (Hb1 : b ≠ -1) by tauto.
  destruct (Z.eq_dec b 1) as [-> | Hb2].
  - rewrite Z.quot_1_r. lia.
  - (* |b| >= 2, so the magnitude at least halves *)
    assert (Hq : Z.abs (Z.quot (-2147483648) b) <= 1073741824).
    { rewrite <- Z.quot_abs by assumption.
      rewrite Z.quot_div_nonneg by lia.
      apply Z.div_le_upper_bound; lia. }
    lia.
Qed.

Lemma safe_div_nonzero (a b : Z) :
  b ≠ 0 → safe_div a b = int_div a b.
Proof.
  intros Hb. unfold safe_div.
  destruct (Z.eqb_spec b 0); [contradiction | reflexivity].
Qed.

Lemma int_div_defined (a b : Z) :
  b ≠ 0 → is_int (Z.quot a b) → int_div a b = Some (Z.quot a b).
Proof.
  intros Hb Hq. unfold int_div.
  destruct (Z.eqb_spec b 0); [contradiction |].
  apply representable_is_int in Hq. cbn zeta. now rewrite Hq.
Qed.

(** ** Byte arrays: [splice] *)

Section splice.
Implicit Types (bs data : list byte) (o i j : nat).

Lemma length_splice bs o data :
  (o + length data ≤ length bs)%nat →
  length (splice bs o data) = length bs.
Proof.
  intros Hle. unfold splice.
  rewrite !length_app, length_take, length_drop. lia.
Qed.

(** Inside the written range the new bytes are read back. *)
Lemma lookup_splice_in bs o data i :
  (o ≤ length bs)%nat → (i < length data)%nat →
  splice bs o data !! (o + i)%nat = data !! i.
Proof.
  intros Ho Hi. unfold splice.
  rewrite lookup_app_r by (rewrite length_take; lia).
  rewrite length_take, Nat.min_l by lia.
  replace (o + i - o)%nat with i by lia.
  by rewrite lookup_app_l.
Qed.

(** Outside it the old ones are. *)
Lemma lookup_splice_out bs o data j :
  (o + length data ≤ length bs)%nat →
  (j < o ∨ o + length data ≤ j)%nat →
  splice bs o data !! j = bs !! j.
Proof.
  intros Hle [Hj | Hj]; unfold splice.
  - rewrite lookup_app_l by (rewrite length_take; lia).
    by rewrite lookup_take_lt.
  - rewrite lookup_app_r by (rewrite length_take; lia).
    rewrite length_take, Nat.min_l by lia.
    rewrite lookup_app_r by lia.
    rewrite lookup_drop. f_equal. lia.
Qed.

(** Writing one byte is [splice] with a singleton. *)
Lemma insert_splice bs o c :
  (o < length bs)%nat → <[o := c]> bs = splice bs o [c].
Proof.
  intros Ho. apply list_eq. intros j.
  destruct (decide (j = o)) as [-> | Hne].
  - rewrite list_lookup_insert_eq by done.
    pose proof (lookup_splice_in bs o [c] 0) as Hin.
    rewrite Nat.add_0_r in Hin. rewrite Hin; simpl; [done | lia | lia].
  - rewrite list_lookup_insert_ne by done.
    rewrite lookup_splice_out; simpl; [done | lia | lia].
Qed.

(** Two adjacent writes are one write of the concatenation. *)
Lemma splice_splice_app bs o data1 data2 :
  (o + length data1 + length data2 ≤ length bs)%nat →
  splice (splice bs o data1) (o + length data1) data2
  = splice bs o (data1 ++ data2).
Proof.
  intros Hle. apply list_eq. intros j.
  assert (Hlen1 : length (splice bs o data1) = length bs)
    by (apply length_splice; lia).
  destruct (decide (j < o)%nat) as [Hlt | Hge].
  - rewrite !lookup_splice_out; rewrite ?length_app; try lia. done.
  - destruct (decide (j < o + length data1)%nat) as [H1 | H1].
    + rewrite lookup_splice_out by lia.
      replace j with (o + (j - o))%nat by lia.
      rewrite !lookup_splice_in; rewrite ?length_app; try lia.
      by rewrite lookup_app_l by lia.
    + destruct (decide (j < o + length data1 + length data2)%nat) as [H2 | H2].
      * replace j with (o + length data1 + (j - o - length data1))%nat at 1 by lia.
        rewrite lookup_splice_in by lia.
        replace j with (o + (j - o))%nat by lia.
        rewrite lookup_splice_in; rewrite ?length_app; try lia.
        rewrite lookup_app_r by lia. f_equal. lia.
      * rewrite !lookup_splice_out; rewrite ?length_app; try lia. done.
Qed.

(** Writing the same bytes again changes nothing. *)
Lemma splice_idemp bs o data :
  (o + length data ≤ length bs)%nat →
  splice (splice bs o data) o data = splice bs o data.
Proof.
  intros Hle. apply list_eq. intros j.
  assert (Hlen : length (splice bs o data) = length bs)
    by (apply length_splice; lia).
  destruct (decide (o ≤ j < o + length data)%nat) as [Hin | Hout].
  - replace j with (o + (j - o))%nat by lia.
    rewrite !lookup_splice_in by lia. done.
  - rewrite (lookup_splice_out (splice bs o data)) by lia. done.
Qed.

(** The bytes of a range that a write does not touch. *)
Lemma take_drop_splice_disjoint bs o data o' k :
  (o + length data ≤ length bs)%nat →
  (o' + k ≤ o ∨ o + length data ≤ o')%nat →
  take k (drop o' (splice bs o data)) = take k (drop o' bs).
Proof.
  intros Hle Hdisj. apply list_eq. intros j.
  destruct (decide (j < k)%nat) as [Hj | Hj].
  - rewrite !lookup_take_lt, !lookup_drop by done.
    apply lookup_splice_out; lia.
  - rewrite !lookup_take_ge by lia. done.
Qed.

Lemma take_drop_splice_same bs o data :
  (o + length data ≤ length bs)%nat →
  take (length data) (drop o (splice bs o data)) = data.
Proof.
  intros Hle. unfold splice.
  rewrite drop_app_length' by (rewrite length_take; lia).
  by rewrite take_app_length.
Qed.

End splice.

(** ** Memory accesses *)

Lemma load_bytes_Some (m : mem) b o k data :
  load_bytes m (Ptr b o) k = Some data ↔
  ∃ bs, m !! b = Some bs ∧ (o + k ≤ length bs)%nat ∧ data = take k (drop o bs).
Proof.
  unfold load_bytes. split.
  - destruct (m !! b) as [bs |]; simpl; [| done].
    case_decide; [| done]. intros [= <-]. eauto.
  - intros (bs & -> & Hle & ->). simpl. by rewrite decide_True.
Qed.

Lemma valid_buffer_inv (m : mem) p cap :
  valid_buffer m p cap →
  ∃ b o bs, p = Ptr b o ∧ m !! b = Some bs ∧ (o + Z.to_nat cap ≤ length bs)%nat.
Proof.
  intros [data Hdata]. destruct p as [| b o]; [done |].
  apply load_bytes_Some in Hdata as (bs & Hbs & Hle & _). eauto 6.
Qed.

Lemma cstring_at_inv (m : mem) p s :
  cstring_at m p s →
  ∃ b o bs, p = Ptr b o ∧ m !! b = Some bs ∧ (NUL ∉ s)
    ∧ (o + S (length s) ≤ length bs)%nat
    ∧ take (S (length s)) (drop o bs) = s ++ [NUL].
Proof.
  intros [Hnul Hdata]. destruct p as [| b o]; [done |].
  apply load_bytes_Some in Hdata as (bs & Hbs & Hle & Heq).
  exists b, o, bs. eauto.
Qed.

(** A prefix of the text is read back from the memory that holds it. *)
Lemma cstring_at_prefix (m : mem) p s k :
  cstring_at m p s → (k ≤ length s)%nat → load_bytes m p k = Some (take k s).
Proof.
  intros (b & o & bs & -> & Hbs & _ & Hle & Heq)%cstring_at_inv Hk.
  apply load_bytes_Some. exists bs. split_and!; [done | lia |].
  rewrite <- (take_app_le s [NUL] k) by done.
  rewrite <- Heq, take_take. f_equal. lia.
Qed.

Lemma scan_nul_app (s rest : list byte) :
  NUL ∉ s → scan_nul (s ++ NUL :: rest) = Some (length s).
Proof.
  induction s as [| c s IH]; intros Hnul; simpl.
  - done.
  - apply not_elem_of_cons in Hnul as [Hc Hs].
    rewrite decide_False by done. by rewrite IH.
Qed.

(** [strlen] of a well-formed text is its length. *)
Lemma strlen_cstring (m : mem) p s :
  cstring_at m p s → strlen m p = Some (Z.of_nat (length s)).
Proof.
  intros (b & o & bs & -> & Hbs & Hnul & Hle & Heq)%cstring_at_inv.
  unfold strlen. rewrite Hbs. simpl.
  rewrite <- (take_drop (S (length s)) (drop o bs)), Heq.
  rewrite <- app_assoc. simpl. by rewrite scan_nul_app.
Qed.

Lemma scan_nul_Some (bs : list byte) k :
  scan_nul bs = Some k →
  (NUL ∉ take k bs) ∧ (S k ≤ length bs)%nat ∧ take (S k) bs = take k bs ++ [NUL].
Proof.
  revert k. induction bs as [| c bs IH]; intros k; simpl; [done |].
  case_decide as Hc.
  - intros [= <-]. subst c. simpl. split_and!; [apply not_elem_of_nil | lia |].
    by rewrite take_0.
  - destruct (scan_nul bs) as [k' |] eqn:Hscan; simpl; [| done].
    intros [= <-]. destruct (IH k' eq_refl) as (Hnul & Hle & Heq).
    simpl. split_and!.
    + apply not_elem_of_cons. split; [congruence | done].
    + lia.
    + simpl in Heq. by rewrite Heq.
Qed.

(** Conversely, when [strlen] is defined there is a well-formed text. *)
Lemma strlen_Some (m : mem) p L :
  strlen m p = Some L →
  ∃ s, cstring_at m p s ∧ L = Z.of_nat (length s).
Proof.
  destruct p as [| b o]; [done |]. unfold strlen.
  destruct (m !! b) as [bs |] eqn:Hbs; simpl; [| done].
  destruct (scan_nul (drop o bs)) as [k |] eqn:Hscan; simpl; [| done].
  intros [= <-].
  destruct (scan_nul_Some _ _ Hscan) as (Hnul & Hle & Heq).
  rewrite length_drop in Hle.
  assert (Hlen : length (take k (drop o bs)) = k)
    by (rewrite length_take, length_drop; lia).
  exists (take k (drop o bs)). split; [| by rewrite Hlen].
  split; [done |]. rewrite Hlen.
  apply load_bytes_Some. exists bs. split_and!; [done | lia | done].
Qed.

(** ** What [copy_cstr] computes *)

(** The clamp of the code is the minimum of the contract. *)
Lemma clamp_min (L cap : Z) :
  is_size_t cap → 0 < cap →
  (if L >=? cap then size_sub cap 1 else L) = Z.min L (cap - 1).
Proof.
  unfold is_size_t, SIZE_MAX, size_sub. intros Hcap Hpos.
  rewrite Z.geb_leb. destruct (Z.leb_spec cap L).
  - rewrite Z.mod_small by lia. lia.
  - lia.
Qed.

Lemma copy_cstr_guard (m : mem) b o cap src :
  cap ≠ 0 →
  copy_cstr m (Ptr b o) cap src =
  if bool_decide (src = nullptr) then
    m' ← store m (Ptr b o) NUL; Some (0, m')
  else
    n ← strlen m src;
    let n := if n >=? cap then size_sub cap 1 else n in
    m1 ← memcpy m (Ptr b o) src n;
    m2 ← store m1 (ptr_add (Ptr b o) n) NUL;
    Some (n, m2).
Proof.
  intros Hcap. unfold copy_cstr.
  rewrite bool_decide_false by done.
  destruct (Z.eqb_spec cap 0); [done |]. simpl.
  by rewrite Nat.add_0_r.
Qed.

(** A null source: the terminator alone is written. *)
Lemma copy_cstr_null_src (m : mem) b o bs cap :
  cap ≠ 0 → m !! b = Some bs → (o < length bs)%nat →
  copy_cstr m (Ptr b o) cap nullptr = Some (0, <[b := splice bs o [NUL]]> m).
Proof.
  intros Hcap Hbs Ho. rewrite copy_cstr_guard by done.
  rewrite bool_decide_true by done. simpl. rewrite Hbs. simpl.
  rewrite decide_True by done. simpl.
  by rewrite insert_splice.
Qed.

(** A text [s] at the source: its first [n] units and a terminator are
    written, [n] the minimum of the length and the capacity less one. *)
Lemma copy_cstr_text (m : mem) b o bs cap src s :
  is_size_t cap → 0 < cap →
  m !! b = Some bs → (o + Z.to_nat cap ≤ length bs)%nat →
  cstring_at m src s →
  let n := Z.min (Z.of_nat (length s)) (cap - 1) in
  ¬ overlap (Ptr b o) (Z.to_nat n) src (Z.to_nat n) →
  copy_cstr m (Ptr b o) cap src
  = Some (n, <[b := splice bs o (take (Z.to_nat n) s ++ [NUL])]> m).
Proof.
  intros Hsz Hpos Hbs Hle Hs n Hov.
  assert (Hk : (Z.to_nat n ≤ length s)%nat) by lia.
  assert (Hkcap : (Z.to_nat n < Z.to_nat cap)%nat) by lia.
  assert (Hlen : length (take (Z.to_nat n) s) = Z.to_nat n)
    by (rewrite length_take; lia).
  rewrite copy_cstr_guard by lia.
  rewrite bool_decide_false
    by (intros ->; by apply cstring_at_inv in Hs as (? & ? & ? & ? & _)).
  rewrite (strlen_cstring _ _ _ Hs). simpl.
  rewrite clamp_min by done. fold n.
  unfold memcpy. rewrite (cstring_at_prefix _ _ _ _ Hs Hk). simpl.
  rewrite decide_False by done.
  simpl. rewrite Hbs. simpl. rewrite decide_True by lia. simpl.
  rewrite lookup_insert_eq. simpl.
  rewrite decide_True by (rewrite length_splice; lia). simpl.
  rewrite insert_insert_eq. do 3 f_equal.
  rewrite insert_splice by (rewrite length_splice; lia).
  rewrite <- Hlen at 2. apply splice_splice_app. simpl. lia.
Qed.

(** ** The memory after a write of a text and its terminator *)

Section written.
Variables (m : mem) (b : block) (o : nat) (bs t : list byte).
Hypothesis Hbs : m !! b = Some bs.
Hypothesis Hfit : (o + S (length t) ≤ length bs)%nat.

Local Abbreviation m' := (<[b := splice bs o (t ++ [NUL])]> m).

Lemma written_fit : (o + length (t ++ [NUL]) ≤ length bs)%nat.
Proof using Hfit. rewrite length_app. simpl. lia. Qed.

Lemma written_block : m' !! b = Some (splice bs o (t ++ [NUL])).
Proof using Type. apply lookup_insert_eq. Qed.

Lemma written_length : length (splice bs o (t ++ [NUL])) = length bs.
Proof using Hfit. apply length_splice, written_fit. Qed.

(** The text and its terminator are read back. *)
Lemma written_all : load_bytes m' (Ptr b o) (S (length t)) = Some (t ++ [NUL]).
Proof using Hfit.
  apply load_bytes_Some. eexists. split_and!; [apply written_block | |].
  - rewrite written_length. lia.
  - replace (S (length t)) with (length (t ++ [NUL]))
      by (rewrite length_app; simpl; lia).
    symmetry. apply take_drop_splice_same, written_fit.
Qed.

Lemma written_text : load_bytes m' (Ptr b o) (length t) = Some t.
Proof using Hfit.
  apply load_bytes_Some. eexists. split_and!; [apply written_block | |].
  - rewrite written_length. lia.
  - transitivity (take (length t) (take (length (t ++ [NUL]))
                                    (drop o (splice bs o (t ++ [NUL]))))).
    + rewrite take_drop_splice_same by apply written_fit.
      by rewrite take_app_length.
    + rewrite take_take. f_equal. rewrite length_app. simpl. lia.
Qed.

Lemma written_terminator : load m' (Ptr b (o + length t)) = Some NUL.
Proof using Hfit.
  simpl. rewrite written_block. simpl.
  rewrite lookup_splice_in; [| lia | rewrite length_app; simpl; lia].
  rewrite lookup_app_r by lia. by rewrite Nat.sub_diag.
Qed.

Lemma written_cstring : NUL ∉ t → cstring_at m' (Ptr b o) t.
Proof using Hfit. intros Hnul. split; [done | apply written_all]. Qed.

(** Every byte outside the written slots keeps its value. *)
Lemma written_frame (q : ptr) :
  ¬ in_buffer (Ptr b o) (Z.of_nat (S (length t))) q → load m' q = load m q.
Proof using Hbs Hfit.
  destruct q as [| b' o']; [done |]. simpl. intros Hout.
  destruct (decide (b' = b)) as [-> | Hne].
  - rewrite written_block, Hbs. simpl.
    apply lookup_splice_out; [apply written_fit |].
    rewrite length_app. simpl. lia.
  - by rewrite lookup_insert_ne.
Qed.

(** No object is created or resized. *)
Lemma written_valid (p : ptr) (cap : Z) :
  valid_buffer m p cap → valid_buffer m' p cap.
Proof using Hbs Hfit.
  intros (b' & o' & bs' & -> & Hbs' & Hle)%valid_buffer_inv.
  unfold valid_buffer. destruct (decide (b' = b)) as [-> | Hne].
  - eexists. apply load_bytes_Some. eexists.
    split_and!; [apply written_block | | done].
    rewrite written_length. congruence.
  - eexists. apply load_bytes_Some. exists bs'.
    split_and!; [| done | done]. by rewrite lookup_insert_ne.
Qed.

(** A text that the written slots do not touch is still there. *)
Lemma written_cstring_frame (src : ptr) (s : list byte) :
  cstring_at m src s →
  ¬ overlap (Ptr b o) (S (length t)) src (S (length s)) →
  cstring_at m' src s.
Proof using Hbs Hfit.
  intros (b' & o' & bs' & -> & Hbs' & Hnul & Hle & Heq)%cstring_at_inv Hov.
  split; [done |]. apply load_bytes_Some. simpl in Hov.
  destruct (decide (b' = b)) as [-> | Hne].
  - assert (bs' = bs) as -> by congruence.
    eexists. split_and!; [apply written_block | |].
    + rewrite written_length. lia.
    + rewrite take_drop_splice_disjoint; [done | apply written_fit |].
      rewrite length_app. simpl. lia.
  - exists bs'. split_and!; [| lia | done].
    by rewrite lookup_insert_ne.
Qed.

(** Writing the same text again leaves the memory as it is. *)
Lemma written_again : <[b := splice (splice bs o (t ++ [NUL])) o (t ++ [NUL])]> m' = m'.
Proof using Hfit.
  rewrite insert_insert_eq. f_equal.
  apply splice_idemp, written_fit.
Qed.

End written.

(** * Properties of [safe_div] *)

(** [safe_div] is undefined exactly when the quotient overflows. *)
Lemma safe_div_None_iff (a b : Z) :
  is_int a → safe_div a b = None ↔ a = INT_MIN ∧ b = -1.
Proof.
  intros Ha. split.
  - intros Hnone.
    destruct (decide (a = INT_MIN ∧ b = -1)) as [| Hne]; [done |].
    destruct (decide (b = 0)) as [-> | Hb]; [done |].
    rewrite safe_div_nonzero, int_div_defined in Hnone;
      [done | done | by apply quot_representable | done].
  - intros [-> ->]. reflexivity.
Qed.

(** C5: for every integer [a], [safe_div a 0] is the sentinel [0]: a
    defined result, no error is signalled. *)
Theorem safe_div_zero_divisor (a : Z) : safe_div a 0 = Some 0.
Proof.
  unfold safe_div. (* the guard [b == 0] is taken, [a / b] is not reached *)
  rewrite Z.eqb_refl. reflexivity.
Qed.

(** C9: for every [int] [a], [safe_div a 1] is [a]. *)
Theorem safe_div_one (a : Z) : is_int a → safe_div a 1 = Some a.
Proof.
  intros Ha. rewrite safe_div_nonzero by done.
  rewrite int_div_defined; rewrite ?Z.quot_1_r; done.
Qed.

Lemma safe_div_one_witness : is_int 42 ∧ safe_div 42 1 = Some 42.
Proof.
  assert (H : is_int 42) by (unfold is_int, INT_MIN, INT_MAX; lia).
  split; [exact H | exact (safe_div_one 42 H)].
Defined.

(** C4, as the code has it: for every [int] [a] and every [b] other than
    zero, the pair [INT_MIN], [-1] apart, [safe_div a b] is the quotient of
    [a] by [b] truncated toward zero. *)
Theorem safe_div_quot (a b : Z) :
  is_int a → b ≠ 0 → ¬ (a = INT_MIN ∧ b = -1) →
  safe_div a b = Some (Z.quot a b).
Proof.
  intros Ha Hb Hne. rewrite safe_div_nonzero by done.
  apply int_div_defined; [done |]. by apply quot_representable.
Qed.

Lemma safe_div_quot_witness :
  is_int (-7) ∧ 2 ≠ 0 ∧ safe_div (-7) 2 = Some (-3).
Proof.
  assert (Ha : is_int (-7)) by (unfold is_int, INT_MIN, INT_MAX; lia).
  assert (Hb : 2 ≠ 0) by lia.
  assert (Hne : ¬ (-7 = INT_MIN ∧ 2 = -1)) by lia.
  split_and!; [exact Ha | exact Hb | exact (safe_div_quot (-7) 2 Ha Hb Hne)].
Defined.

(** C4 fails as stated: [INT_MIN] and [-1] are [int]s, the divisor is not
    zero, and [safe_div] does not return the truncated quotient [2^31],
    which no [int] holds. *)
Lemma safe_div_quot_overflow :
  is_int INT_MIN ∧ is_int (-1) ∧ -1 ≠ 0
  ∧ Z.quot INT_MIN (-1) = 2 ^ 31
  ∧ safe_div INT_MIN (-1) ≠ Some (Z.quot INT_MIN (-1)).
Proof.
  unfold is_int, INT_MIN, INT_MAX. split_and!; try lia; try done.
Qed.

(** C3, as the code has it: for every pair of [int]s other than [INT_MIN]
    and [-1], a zero divisor included, [safe_div] returns an [int]. *)
Theorem safe_div_total (a b : Z) :
  is_int a → is_int b → ¬ (a = INT_MIN ∧ b = -1) →
  ∃ q, safe_div a b = Some q ∧ is_int q.
Proof.
  intros Ha _ Hne. destruct (decide (b = 0)) as [-> | Hb].
  - exists 0. split; [done |]. unfold is_int, INT_MIN, INT_MAX. lia.
  - pose proof (quot_representable a b Ha Hb Hne) as Hq.
    exists (Z.quot a b). split; [| done].
    rewrite safe_div_nonzero by done. by apply int_div_defined.
Qed.

Lemma safe_div_total_witness :
  is_int 10 ∧ is_int 0 ∧ ∃ q, safe_div 10 0 = Some q ∧ is_int q.
Proof.
  assert (Ha : is_int 10) by (unfold is_int, INT_MIN, INT_MAX; lia).
  assert (Hb : is_int 0) by (unfold is_int, INT_MIN, INT_MAX; lia).
  assert (Hne : ¬ (10 = INT_MIN ∧ 0 = -1)) by lia.
  split_and!; [exact Ha | exact Hb | exact (safe_div_total 10 0 Ha Hb Hne)].
Defined.

(** C3 fails as stated: at the [int]s [INT_MIN] and [-1] the division of the
    code has no defined result. *)
Lemma safe_div_overflow_undefined :
  is_int INT_MIN ∧ is_int (-1) ∧ safe_div INT_MIN (-1) = None.
Proof.
  unfold is_int, INT_MIN, INT_MAX. split_and!; try lia; done.
Qed.

(** * Properties of [copy_cstr] *)

Lemma copied_le_length (s : list byte) (cap : Z) :
  (copied s cap ≤ length s)%nat.
Proof. unfold copied. lia. Qed.

Lemma copied_lt_cap (s : list byte) (cap : Z) :
  0 < cap → (copied s cap < Z.to_nat cap)%nat.
Proof. unfold copied. lia. Qed.

Lemma copied_min (s : list byte) (cap : Z) :
  0 < cap → Z.of_nat (copied s cap) = Z.min (Z.of_nat (length s)) (cap - 1).
Proof. unfold copied. lia. Qed.

Lemma length_take_copied (s : list byte) (cap : Z) :
  length (take (copied s cap) s) = copied s cap.
Proof. rewrite length_take. pose proof (copied_le_length s cap). lia. Qed.

Lemma not_elem_of_take (c : byte) (s : list byte) (k : nat) :
  c ∉ s → c ∉ take k s.
Proof. intros Hs Hin. apply Hs. by apply (subseteq_take k). Qed.

(** Every defined call that has a buffer writes a text and its terminator
    at the start of the buffer and returns the length of that text; the
    text is empty for a null source and the first [copied s cap] units of
    the source text [s] otherwise. *)
Lemma copy_cstr_result (m : mem) dst cap src :
  is_size_t cap → 0 < cap →
  valid_buffer m dst cap → source_ok m dst cap src →
  ∃ b o bs t,
    dst = Ptr b o ∧ m !! b = Some bs
    ∧ (o + Z.to_nat cap ≤ length bs)%nat
    ∧ (length t < Z.to_nat cap)%nat ∧ (NUL ∉ t)
    ∧ (src = nullptr ∧ t = []
       ∨ ∃ s, cstring_at m src s ∧ t = take (copied s cap) s)
    ∧ copy_cstr m dst cap src
      = Some (Z.of_nat (length t), <[b := splice bs o (t ++ [NUL])]> m).
Proof.
  intros Hsz Hpos (b & o & bs & -> & Hbs & Hle)%valid_buffer_inv Hsrc.
  exists b, o, bs. destruct Hsrc as [-> | (s & Hs & Hov)].
  - exists []. split_and!; try done.
    + simpl. lia.
    + apply not_elem_of_nil.
    + by left.
    + apply copy_cstr_null_src; [lia | done | lia].
  - exists (take (copied s cap) s).
    pose proof (copied_lt_cap s cap Hpos).
    rewrite length_take_copied. split_and!; try done.
    + apply not_elem_of_take. by destruct Hs.
    + right. eauto.
    + rewrite copied_min by done. by apply copy_cstr_text.
Qed.

(** Without a buffer the call stops at its guard. *)
Lemma copy_cstr_skip (m : mem) dst cap src :
  dst = nullptr ∨ cap = 0 → copy_cstr m dst cap src = Some (0, m).
Proof.
  intros [-> | ->]; unfold copy_cstr.
  - done.
  - by rewrite orb_true_r.
Qed.

(** The memory after a write of the terminator alone. *)
Lemma terminator_only (m : mem) b o bs :
  m !! b = Some bs → (o < length bs)%nat →
  let m' : mem := <[b := splice bs o [NUL]]> m in
  load m' (Ptr b o) = Some NUL ∧ ∀ q, q ≠ Ptr b o → load m' q = load m q.
Proof.
  intros Hbs Ho m'.
  assert (Hfit : (o + S (length (@nil byte)) ≤ length bs)%nat) by (simpl; lia).
  split.
  - pose proof (written_terminator m b o bs [] Hfit) as Hnul.
    simpl in Hnul. by rewrite Nat.add_0_r in Hnul.
  - intros q Hq. apply (written_frame m b o bs [] Hbs Hfit).
    destruct q as [| b' o']; simpl; [tauto |].
    intros [-> Ho']. apply Hq. f_equal. lia.
Qed.

(** C6: when the destination is null or the capacity is zero the call
    returns 0 and the memory is as before: nothing is written. *)
Theorem copy_cstr_no_buffer (m : mem) dst cap src :
  dst = nullptr ∨ cap = 0 → copy_cstr m dst cap src = Some (0, m).
Proof.
  intros [Hdst | Hcap]; unfold copy_cstr.
  - (* [dst == nullptr] *)
    rewrite bool_decide_true by done. reflexivity.
  - (* [dst_size == 0] *)
    apply Z.eqb_eq in Hcap. rewrite Hcap, orb_true_r. reflexivity.
Qed.

(** C7: with a buffer of positive capacity and a null source the call
    returns 0, the first slot of the destination holds the terminator, and
    every other byte of the memory is as before. *)
Theorem copy_cstr_null_source (m : mem) dst cap :
  0 < cap → valid_buffer m dst cap →
  ∃ m', copy_cstr m dst cap nullptr = Some (0, m')
        ∧ load m' dst = Some NUL
        ∧ ∀ q, q ≠ dst → load m' q = load m q.
Proof.
  intros Hpos (b & o & bs & -> & Hbs & Hle)%valid_buffer_inv.
  assert (Ho : (o < length bs)%nat) by lia.
  eexists. split; [apply copy_cstr_null_src; [lia | done | done] |].
  by apply terminator_only.
Qed.

(** C2: with a buffer of positive capacity and a source text [s] the call
    returns [n], the minimum of the length of [s] and the capacity less
    one; the first [n] slots of the destination hold the first [n] units of
    [s], and slot [n] holds the terminator. *)
Theorem copy_cstr_copies (m : mem) dst cap src s :
  is_size_t cap → 0 < cap →
  valid_buffer m dst cap → cstring_at m src s →
  ¬ overlap dst (copied s cap) src (copied s cap) →
  let n := Z.min (Z.of_nat (length s)) (cap - 1) in
  ∃ m', copy_cstr m dst cap src = Some (n, m')
        ∧ load_bytes m' dst (Z.to_nat n) = Some (take (Z.to_nat n) s)
        ∧ load m' (ptr_add dst n) = Some NUL.
Proof.
  intros Hsz Hpos (b & o & bs & -> & Hbs & Hle)%valid_buffer_inv Hs Hov n.
  pose proof (copied_lt_cap s cap Hpos) as Hlt.
  pose proof (length_take_copied s cap) as Hlen.
  change (Z.to_nat n) with (copied s cap).
  assert (Hfit : (o + S (length (take (copied s cap) s)) ≤ length bs)%nat)
    by (rewrite Hlen; lia).
  eexists. split_and!.
  - by apply copy_cstr_text.
  - pose proof (written_text m b o bs _ Hfit) as Htext.
    by rewrite Hlen in Htext.
  - pose proof (written_terminator m b o bs _ Hfit) as Hnul.
    rewrite Hlen in Hnul. unfold ptr_add.
    by change (Z.to_nat n) with (copied s cap).
Qed.

(** C1: with a buffer of positive capacity, and a source that is null or
    any text, the call returns a count of at most the capacity less one,
    the destination then holds a text of that length followed by its
    terminator, and no byte outside the [cap] slots of the destination is
    changed. *)
Theorem copy_cstr_safe (m : mem) dst cap src :
  is_size_t cap → 0 < cap →
  valid_buffer m dst cap → source_ok m dst cap src →
  ∃ n m', copy_cstr m dst cap src = Some (n, m')
          ∧ 0 <= n <= cap - 1
          ∧ (∃ t, cstring_at m' dst t ∧ Z.of_nat (length t) = n)
          ∧ ∀ q, ¬ in_buffer dst cap q → load m' q = load m q.
Proof.
  intros Hsz Hpos Hdst Hsrc.
  destruct (copy_cstr_result m dst cap src Hsz Hpos Hdst Hsrc)
    as (b & o & bs & t & -> & Hbs & Hle & Hlen & Hnul & _ & Hcall).
  assert (Hfit : (o + S (length t) ≤ length bs)%nat) by lia.
  eexists _, _. split_and!; [exact Hcall | lia | lia | |].
  - exists t. split; [by apply written_cstring | done].
  - intros q Hout. apply written_frame; [done | done |].
    intros Hin. apply Hout. destruct q as [| b' o']; simpl in *; [done |].
    lia.
Qed.

(** C10: with a buffer of capacity exactly one the call returns 0 and
    writes the terminator to the first slot of the destination; every other
    byte of the memory is as before, whether the source is null or a text
    of any length. *)
Theorem copy_cstr_capacity_one (m : mem) dst src :
  valid_buffer m dst 1 →
  src = nullptr ∨ (∃ s, cstring_at m src s) →
  ∃ m', copy_cstr m dst 1 src = Some (0, m')
        ∧ load m' dst = Some NUL
        ∧ ∀ q, q ≠ dst → load m' q = load m q.
Proof.
  intros (b & o & bs & -> & Hbs & Hle)%valid_buffer_inv Hsrc.
  assert (Ho : (o < length bs)%nat) by lia.
  exists (<[b := splice bs o [NUL]]> m).
  split; [| by apply terminator_only].
  destruct Hsrc as [-> | [s Hs]].
  - apply copy_cstr_null_src; [lia | done | done].
  - assert (Hsz : is_size_t 1) by (unfold is_size_t, SIZE_MAX; lia).
    assert (Hk : Z.to_nat (Z.min (Z.of_nat (length s)) (1 - 1)) = 0%nat) by lia.
    pose proof (copy_cstr_text m b o bs 1 src s Hsz ltac:(lia) Hbs Hle Hs) as Hcall.
    cbn zeta in Hcall. rewrite Hk, take_0 in Hcall.
    replace (Z.min (Z.of_nat (length s)) (1 - 1)) with 0 in Hcall by lia.
    apply Hcall. destruct src as [| b' o']; simpl; lia.
Qed.

(** Units and terminator apart, the units to copy are apart from their
    target. *)
Lemma source_apart_ok (m : mem) dst cap src :
  source_apart m dst cap src → source_ok m dst cap src.
Proof.
  intros [-> | (s & Hs & Hov)]; [by left | right].
  exists s. split; [done |]. intros Hk. apply Hov.
  pose proof (copied_le_length s cap).
  destruct dst as [| b o], src as [| b' o']; simpl in *; try done. lia.
Qed.

(** C8, as the code has it: a second call with the same arguments, made in
    the memory the first call left, returns the same count and leaves that
    memory as it is, whenever the call has no buffer, or has one and the
    source is null or a text that, terminator included, shares no byte with
    the slots the call writes. *)
Theorem copy_cstr_twice (m : mem) dst cap src :
  is_size_t cap →
  dst = nullptr ∨ cap = 0
  ∨ valid_buffer m dst cap ∧ source_apart m dst cap src →
  ∃ n m', copy_cstr m dst cap src = Some (n, m')
          ∧ copy_cstr m' dst cap src = Some (n, m').
Proof.
  intros Hsz [Hskip | Hcall].
  { exists 0, m. split; apply copy_cstr_skip; by left. }
  destruct Hcall as [-> | [Hdst Hsrc]].
  { exists 0, m. split; apply copy_cstr_skip; by right. }
  destruct (decide (cap = 0)) as [-> | Hcap].
  { exists 0, m. split; apply copy_cstr_skip; by right. }
  assert (Hpos : 0 < cap) by (unfold is_size_t in Hsz; lia).
  apply valid_buffer_inv in Hdst as (b & o & bs & -> & Hbs & Hle).
  destruct Hsrc as [-> | (s & Hs & Hov)].
  - assert (Hfit : (o + S (length (@nil byte)) ≤ length bs)%nat) by (simpl; lia).
    exists 0, (<[b := splice bs o ([] ++ [NUL])]> m). split.
    + apply copy_cstr_null_src; [lia | done | lia].
    + rewrite <- (written_again m b o bs [] Hfit) at 2.
      apply copy_cstr_null_src; [lia | apply lookup_insert_eq |].
      rewrite written_length by done. lia.
  - pose proof (copied_lt_cap s cap Hpos) as Hlt.
    pose proof (copied_le_length s cap) as Hks.
    pose proof (length_take_copied s cap) as Hlen.
    set (t := take (copied s cap) s) in *.
    assert (Hfit : (o + S (length t) ≤ length bs)%nat) by lia.
    assert (Hmemcpy : ¬ overlap (Ptr b o) (copied s cap) src (copied s cap)).
    { intros Hk. apply Hov.
      destruct src as [| b' o']; simpl in *; [done | lia]. }
    exists (Z.min (Z.of_nat (length s)) (cap - 1)),
           (<[b := splice bs o (t ++ [NUL])]> m). split.
    + by apply copy_cstr_text.
    + rewrite <- (written_again m b o bs t Hfit) at 2.
      apply copy_cstr_text; try done.
      * apply lookup_insert_eq.
      * rewrite written_length by done. lia.
      * apply written_cstring_frame; try done. by rewrite Hlen.
Qed.

(** The hypotheses above ask no more than that the call be defined: a
    call with a buffer that returns at all has a source that is null or a
    text whose copied part is apart from its target, and the destination has
    the slots it writes. *)
Lemma copy_cstr_defined (m : mem) dst cap src n m' :
  is_size_t cap → dst ≠ nullptr → cap ≠ 0 →
  copy_cstr m dst cap src = Some (n, m') →
  valid_buffer m dst (n + 1) ∧ source_ok m dst cap src.
Proof.
  intros Hsz Hdst Hcap. destruct dst as [| b o]; [done |].
  assert (Hpos : 0 < cap) by (unfold is_size_t in Hsz; lia).
  rewrite copy_cstr_guard by done. case_bool_decide as Hsrc.
  - subst src. simpl.
    destruct (m !! b) as [bs |] eqn:Hbs; simpl; [| done].
    case_decide as Ho; simpl; [| done]. intros [= <- <-]. split; [| by left].
    eexists. apply load_bytes_Some. exists bs. split_and!; [done | | done].
    simpl. lia.
  - destruct (strlen m src) as [L |] eqn:HL; simpl; [| done].
    apply strlen_Some in HL as (s & Hs & ->).
    rewrite clamp_min by done.
    fold (copied s cap). rewrite <- copied_min by done.
    unfold memcpy. rewrite Nat2Z.id.
    destruct (load_bytes m src (copied s cap)) as [data |] eqn:Hdata;
      simpl; [| done].
    case_decide as Hov; [done |].
    destruct (m !! b) as [bs |] eqn:Hbs; simpl; [| done].
    case_decide as Hle; simpl; [| done].
    rewrite lookup_insert_eq. simpl.
    case_decide as Hlt; simpl; [| done]. intros [= <- <-].
    rewrite (cstring_at_prefix _ _ _ _ Hs (copied_le_length s cap)) in Hdata.
    injection Hdata as <-. rewrite length_take_copied in *.
    rewrite length_splice in Hlt by (rewrite length_take_copied; lia).
    split; [| right; eauto].
    eexists. apply load_bytes_Some. exists bs. split_and!; [done | lia | done].
Qed.

(** C8 fails as stated.  In [char buf[5] = "abcd"] the call
    [copy_cstr(buf, 5, buf + 2)] is well defined: the buffer has five slots,
    the source is the text ["cd"], and the two bytes copied do not overlap
    their target.  It returns 2 and leaves ["cd\0d\0"]: the terminator has
    been written over the first unit of the source.  The same call again
    reads an empty text, returns 0 and leaves ["\0d\0d\0"]. *)
Lemma copy_cstr_twice_aliased :
  let dst := Ptr 0 0 in
  let src := Ptr 0 2 in
  is_size_t 5
  ∧ valid_buffer Scenario.m_alias dst 5
  ∧ cstring_at Scenario.m_alias src ["c"; "d"]%byte
  ∧ ¬ overlap dst 2 src 2
  ∧ copy_cstr Scenario.m_alias dst 5 src = Some (2, Scenario.m_alias1)
  ∧ copy_cstr Scenario.m_alias1 dst 5 src = Some (0, Scenario.m_alias2)
  ∧ Scenario.m_alias1 ≠ Scenario.m_alias2.
Proof.
  split_and!.
  - unfold is_size_t, SIZE_MAX. lia.
  - eexists. reflexivity.
  - split; [by apply (bool_decide_unpack _) | reflexivity].
  - simpl. lia.
  - reflexivity.
  - reflexivity.
  - intros Heq. apply (f_equal (λ m : mem, load m (Ptr 0 0))) in Heq.
    discriminate Heq.
Qed.

(** ** Witnesses *)

Lemma copy_cstr_no_buffer_witness :
  (Scenario.buf = nullptr ∨ 0 = 0)
  ∧ copy_cstr Scenario.m0 Scenario.buf 0 Scenario.lit_abc
    = Some (0, Scenario.m0).
Proof.
  assert (H : Scenario.buf = nullptr ∨ 0 = 0) by (right; reflexivity).
  split; [exact H |].
  exact (copy_cstr_no_buffer Scenario.m0 Scenario.buf 0 Scenario.lit_abc H).
Defined.

Lemma copy_cstr_null_source_witness :
  0 < 4 ∧ valid_buffer Scenario.m0 Scenario.buf 4
  ∧ ∃ m', copy_cstr Scenario.m0 Scenario.buf 4 nullptr = Some (0, m')
          ∧ load m' Scenario.buf = Some NUL
          ∧ ∀ q, q ≠ Scenario.buf → load m' q = load Scenario.m0 q.
Proof.
  assert (Hpos : 0 < 4) by lia.
  assert (Hdst : valid_buffer Scenario.m0 Scenario.buf 4)
    by (eexists; reflexivity).
  split_and!; [exact Hpos | exact Hdst |].
  exact (copy_cstr_null_source Scenario.m0 Scenario.buf 4 Hpos Hdst).
Defined.

Lemma copy_cstr_copies_witness :
  is_size_t 4 ∧ valid_buffer Scenario.m0 Scenario.buf 4
  ∧ cstring_at Scenario.m0 Scenario.lit_abcdef ["a"; "b"; "c"; "d"; "e"; "f"]%byte
  ∧ ∃ m', copy_cstr Scenario.m0 Scenario.buf 4 Scenario.lit_abcdef = Some (3, m')
          ∧ load_bytes m' Scenario.buf 3 = Some ["a"; "b"; "c"]%byte
          ∧ load m' (Ptr 0 3) = Some NUL.
Proof.
  assert (Hsz : is_size_t 4) by (unfold is_size_t, SIZE_MAX; lia).
  assert (Hpos : 0 < 4) by lia.
  assert (Hdst : valid_buffer Scenario.m0 Scenario.buf 4)
    by (eexists; reflexivity).
  assert (Hs : cstring_at Scenario.m0 Scenario.lit_abcdef
                 ["a"; "b"; "c"; "d"; "e"; "f"]%byte)
    by (split; [by apply (bool_decide_unpack _) | reflexivity]).
  assert (Hov : ¬ overlap Scenario.buf
                  (copied ["a"; "b"; "c"; "d"; "e"; "f"]%byte 4)
                  Scenario.lit_abcdef
                  (copied ["a"; "b"; "c"; "d"; "e"; "f"]%byte 4))
    by (simpl; lia).
  split_and!; [exact Hsz | exact Hdst | exact Hs |].
  exact (copy_cstr_copies Scenario.m0 Scenario.buf 4 Scenario.lit_abcdef
           _ Hsz Hpos Hdst Hs Hov).
Defined.

Lemma copy_cstr_safe_witness :
  is_size_t 4 ∧ valid_buffer Scenario.m0 Scenario.buf 4
  ∧ source_ok Scenario.m0 Scenario.buf 4 Scenario.lit_abcdef
  ∧ ∃ n m', copy_cstr Scenario.m0 Scenario.buf 4 Scenario.lit_abcdef = Some (n, m')
            ∧ 0 <= n <= 4 - 1
            ∧ (∃ t, cstring_at m' Scenario.buf t ∧ Z.of_nat (length t) = n)
            ∧ ∀ q, ¬ in_buffer Scenario.buf 4 q → load m' q = load Scenario.m0 q.
Proof.
  assert (Hsz : is_size_t 4) by (unfold is_size_t, SIZE_MAX; lia).
  assert (Hpos : 0 < 4) by lia.
  assert (Hdst : valid_buffer Scenario.m0 Scenario.buf 4)
    by (eexists; reflexivity).
  assert (Hsrc : source_ok Scenario.m0 Scenario.buf 4 Scenario.lit_abcdef).
  { right. exists ["a"; "b"; "c"; "d"; "e"; "f"]%byte. split.
    - split; [by apply (bool_decide_unpack _) | reflexivity].
    - simpl. lia. }
  split_and!; [exact Hsz | exact Hdst | exact Hsrc |].
  exact (copy_cstr_safe Scenario.m0 Scenario.buf 4 Scenario.lit_abcdef
           Hsz Hpos Hdst Hsrc).
Defined.

Lemma copy_cstr_capacity_one_witness :
  valid_buffer Scenario.m0 Scenario.buf 1
  ∧ (∃ s, cstring_at Scenario.m0 Scenario.lit_abc s)
  ∧ ∃ m', copy_cstr Scenario.m0 Scenario.buf 1 Scenario.lit_abc = Some (0, m')
          ∧ load m' Scenario.buf = Some NUL
          ∧ ∀ q, q ≠ Scenario.buf → load m' q = load Scenario.m0 q.
Proof.
  assert (Hdst : valid_buffer Scenario.m0 Scenario.buf 1)
    by (eexists; reflexivity).
  assert (Hs : ∃ s, cstring_at Scenario.m0 Scenario.lit_abc s).
  { exists ["a"; "b"; "c"]%byte.
    split; [by apply (bool_decide_unpack _) | reflexivity]. }
  split_and!; [exact Hdst | exact Hs |].
  exact (copy_cstr_capacity_one Scenario.m0 Scenario.buf Scenario.lit_abc
           Hdst (or_intror Hs)).
Defined.

Lemma copy_cstr_twice_witness :
  is_size_t 4 ∧ valid_buffer Scenario.m0 Scenario.buf 4
  ∧ source_apart Scenario.m0 Scenario.buf 4 Scenario.lit_abcdef
  ∧ ∃ n m', copy_cstr Scenario.m0 Scenario.buf 4 Scenario.lit_abcdef = Some (n, m')
            ∧ copy_cstr m' Scenario.buf 4 Scenario.lit_abcdef = Some (n, m').
Proof.
  assert (Hsz : is_size_t 4) by (unfold is_size_t, SIZE_MAX; lia).
  assert (Hdst : valid_buffer Scenario.m0 Scenario.buf 4)
    by (eexists; reflexivity).
  assert (Hsrc : source_apart Scenario.m0 Scenario.buf 4 Scenario.lit_abcdef).
  { right. exists ["a"; "b"; "c"; "d"; "e"; "f"]%byte. split.
    - split; [by apply (bool_decide_unpack _) | reflexivity].
    - simpl. lia. }
  split_and!; [exact Hsz | exact Hdst | exact Hsrc |].
  exact (copy_cstr_twice Scenario.m0 Scenario.buf 4 Scenario.lit_abcdef
           Hsz (or_intror (or_intror (conj Hdst Hsrc)))).
Defined.

(** * Further properties of [safe_div] *)

(** X1: a result [q] for a divisor other than zero rounds toward zero:
    [b * q] falls short of [a] by a remainder smaller in magnitude than
    [b], and that remainder is zero or has the sign of [a]. *)
Theorem safe_div_mul_back (a b q : Z) :
  b ≠ 0 → safe_div a b = Some q →
  ∃ r, a = b * q + r ∧ Z.abs r < Z.abs b ∧ 0 <= r * a.
Proof.
  intros Hb. rewrite safe_div_nonzero by done. unfold int_div.
  destruct (Z.eqb_spec b 0); [done |]. cbn zeta.
  destruct (representable (Z.quot a b)); [| done]. intros [= <-].
  exists (Z.rem a b). split_and!.
  - apply Z.quot_rem'.
  - by apply Z.rem_bound_abs.
  - by apply Z.rem_sign_mul.
Qed.

Lemma safe_div_mul_back_witness :
  2 ≠ 0 ∧ safe_div (-7) 2 = Some (-3)
  ∧ ∃ r, -7 = 2 * -3 + r ∧ Z.abs r < Z.abs 2 ∧ 0 <= r * -7.
Proof.
  assert (Hb : 2 ≠ 0) by lia.
  assert (Hq : safe_div (-7) 2 = Some (-3)) by reflexivity.
  split_and!; [exact Hb | exact Hq | exact (safe_div_mul_back (-7) 2 (-3) Hb Hq)].
Defined.

(** X2: the result [0] does not tell a zero divisor from a small dividend:
    [safe_div a b] is [0] exactly when [b] is zero or [a] is smaller in
    magnitude than [b]. *)
Theorem safe_div_zero_iff (a b : Z) :
  safe_div a b = Some 0 ↔ b = 0 ∨ Z.abs a < Z.abs b.
Proof.
  destruct (decide (b = 0)) as [-> | Hb].
  - split; [by left | reflexivity].
  - rewrite safe_div_nonzero by done. unfold int_div.
    destruct (Z.eqb_spec b 0); [done |]. cbn zeta.
    rewrite <- (Z.quot_small_iff a b) by done. split.
    + destruct (representable (Z.quot a b)); [| done].
      intros [= ->]. by right.
    + intros [? | ->]; [done | reflexivity].
Qed.

(** X3: the division is odd in the dividend, as rounding toward zero is:
    for every [int] [a] other than [INT_MIN], and every divisor, negating
    [a] negates the result. *)
Theorem safe_div_opp (a b : Z) :
  is_int a → a ≠ INT_MIN →
  ∃ q, safe_div a b = Some q ∧ safe_div (- a) b = Some (- q).
Proof.
  intros Ha Hmin. destruct (decide (b = 0)) as [-> | Hb].
  - by exists 0.
  - assert (Ha' : is_int (- a))
      by (unfold is_int in *; rewrite INT_MIN_val, INT_MAX_val in *; lia).
    assert (Hmin' : - a ≠ INT_MIN)
      by (unfold is_int in *; rewrite INT_MIN_val, INT_MAX_val in *; lia).
    exists (Z.quot a b). rewrite !safe_div_nonzero by done.
    rewrite <- Z.quot_opp_l by done. split.
    + apply int_div_defined; [done |]. apply quot_representable; tauto.
    + apply int_div_defined; [done |]. apply quot_representable; tauto.
Qed.

Lemma safe_div_opp_witness :
  is_int 7 ∧ 7 ≠ INT_MIN
  ∧ ∃ q, safe_div 7 2 = Some q ∧ safe_div (- 7) 2 = Some (- q).
Proof.
  assert (Ha : is_int 7) by (unfold is_int, INT_MIN, INT_MAX; lia).
  assert (Hmin : 7 ≠ INT_MIN) by (unfold INT_MIN; lia).
  split_and!; [exact Ha | exact Hmin | exact (safe_div_opp 7 2 Ha Hmin)].
Defined.

(** * Further properties of [copy_cstr] *)

(** ** Helpers *)

Lemma scan_nul_None (bs : list byte) : NUL ∉ bs → scan_nul bs = None.
Proof.
  induction bs as [| c bs IH]; intros Hnul; simpl; [done |].
  apply not_elem_of_cons in Hnul as [Hc Hbs].
  rewrite decide_False by done. by rewrite IH.
Qed.

Lemma store_sizes (m m' : mem) p c :
  store m p c = Some m' → ∀ b, length <$> m' !! b = length <$> m !! b.
Proof.
  destruct p as [| b0 o]; simpl; [done |].
  destruct (m !! b0) as [bs |] eqn:Hbs; simpl; [| done].
  case_decide; [| done]. intros [= <-] b.
  destruct (decide (b = b0)) as [-> | Hne].
  - rewrite lookup_insert_eq, Hbs. simpl. by rewrite length_insert.
  - by rewrite lookup_insert_ne.
Qed.

Lemma store_bytes_sizes (m m' : mem) p data :
  store_bytes m p data = Some m' →
  ∀ b, length <$> m' !! b = length <$> m !! b.
Proof.
  destruct p as [| b0 o]; simpl; [done |].
  destruct (m !! b0) as [bs |] eqn:Hbs; simpl; [| done].
  case_decide; [| done]. intros [= <-] b.
  destruct (decide (b = b0)) as [-> | Hne].
  - rewrite lookup_insert_eq, Hbs. simpl. by rewrite length_splice.
  - by rewrite lookup_insert_ne.
Qed.

Lemma memcpy_sizes (m m' : mem) dst src n :
  memcpy m dst src n = Some m' →
  ∀ b, length <$> m' !! b = length <$> m !! b.
Proof.
  unfold memcpy.
  destruct (load_bytes m src (Z.to_nat n)) as [data |]; simpl; [| done].
  case_decide; [done |]. apply store_bytes_sizes.
Qed.

(** ** What the call leaves in memory *)

(** X4: after a defined call with a buffer, [strlen] of the destination is
    the count the call returned. *)
Theorem copy_cstr_strlen (m : mem) dst cap src :
  is_size_t cap → 0 < cap →
  valid_buffer m dst cap → source_ok m dst cap src →
  ∃ n m', copy_cstr m dst cap src = Some (n, m') ∧ strlen m' dst = Some n.
Proof.
  intros Hsz Hpos Hdst Hsrc.
  destruct (copy_cstr_result m dst cap src Hsz Hpos Hdst Hsrc)
    as (b & o & bs & t & -> & Hbs & Hle & Hlen & Hnul & _ & Hcall).
  assert (Hfit : (o + S (length t) ≤ length bs)%nat) by lia.
  eexists _, _. split; [exact Hcall |].
  apply strlen_cstring. by apply written_cstring.
Qed.

(** X5: the call writes the [n] copied units and the terminator and nothing
    else: every byte outside the first [n + 1] slots of the destination,
    the rest of the buffer included, keeps its value.  The buffer is not
    padded. *)
Theorem copy_cstr_no_padding (m : mem) dst cap src :
  is_size_t cap → 0 < cap →
  valid_buffer m dst cap → source_ok m dst cap src →
  ∃ n m', copy_cstr m dst cap src = Some (n, m')
          ∧ ∀ q, ¬ in_buffer dst (n + 1) q → load m' q = load m q.
Proof.
  intros Hsz Hpos Hdst Hsrc.
  destruct (copy_cstr_result m dst cap src Hsz Hpos Hdst Hsrc)
    as (b & o & bs & t & -> & Hbs & Hle & Hlen & Hnul & _ & Hcall).
  assert (Hfit : (o + S (length t) ≤ length bs)%nat) by lia.
  eexists _, _. split; [exact Hcall |].
  intros q Hout. apply written_frame; [done | done |].
  by replace (Z.of_nat (S (length t))) with (Z.of_nat (length t) + 1) by lia.
Qed.

(** X6: a call that returns has created no object and resized none: every
    block has the length it had. *)
Theorem copy_cstr_sizes (m m' : mem) dst cap src n :
  copy_cstr m dst cap src = Some (n, m') →
  ∀ b, length <$> m' !! b = length <$> m !! b.
Proof.
  unfold copy_cstr.
  destruct (bool_decide (dst = nullptr) || (cap =? 0)); [by intros [= <- <-] |].
  destruct (bool_decide (src = nullptr)).
  - destruct (store m (ptr_add dst 0) NUL) as [m1 |] eqn:Hstore; simpl; [| done].
    intros [= <- <-]. by eapply store_sizes.
  - destruct (strlen m src) as [L |]; simpl; [| done].
    destruct (memcpy m dst src _) as [m1 |] eqn:Hcpy; simpl; [| done].
    destruct (store m1 _ NUL) as [m2 |] eqn:Hstore; simpl; [| done].
    intros [= <- <-] b.
    rewrite (store_sizes _ _ _ _ Hstore). by eapply memcpy_sizes.
Qed.

(** X7: the returned count is the length of the source text exactly when
    the text is shorter than the capacity, and then the destination holds
    the whole text; a text of [cap] units or more is cut. *)
Theorem copy_cstr_fits (m : mem) dst cap src s :
  is_size_t cap → 0 < cap →
  valid_buffer m dst cap → cstring_at m src s →
  ¬ overlap dst (copied s cap) src (copied s cap) →
  ∃ n m', copy_cstr m dst cap src = Some (n, m')
          ∧ (n = Z.of_nat (length s) ↔ Z.of_nat (length s) < cap)
          ∧ (Z.of_nat (length s) < cap → cstring_at m' dst s).
Proof.
  intros Hsz Hpos (b & o & bs & -> & Hbs & Hle)%valid_buffer_inv Hs Hov.
  eexists _, _. split_and!.
  - by apply copy_cstr_text.
  - lia.
  - intros Hlt.
    assert (Hk : copied s cap = length s) by (unfold copied; lia).
    fold (copied s cap). rewrite Hk, take_ge by done.
    apply written_cstring; [lia | by destruct Hs].
Qed.

(** X8: a source text that, terminator included, shares no byte with the
    slots the call writes is the same text after the call. *)
Theorem copy_cstr_source_kept (m : mem) dst cap src s :
  is_size_t cap → 0 < cap →
  valid_buffer m dst cap → cstring_at m src s →
  ¬ overlap dst (S (copied s cap)) src (S (length s)) →
  ∃ n m', copy_cstr m dst cap src = Some (n, m') ∧ cstring_at m' src s.
Proof.
  intros Hsz Hpos (b & o & bs & -> & Hbs & Hle)%valid_buffer_inv Hs Hov.
  pose proof (copied_lt_cap s cap Hpos) as Hlt.
  pose proof (copied_le_length s cap) as Hks.
  pose proof (length_take_copied s cap) as Hlen.
  assert (Hmemcpy : ¬ overlap (Ptr b o) (copied s cap) src (copied s cap)).
  { intros Hk. apply Hov.
    destruct src as [| b' o']; simpl in *; [done | lia]. }
  eexists _, _. split; [by apply copy_cstr_text |].
  fold (copied s cap).
  apply written_cstring_frame; [done | rewrite Hlen; lia | done |].
  by rewrite Hlen.
Qed.

(** ** Calls outside the language's rules *)

(** X9: when the units to copy overlap the slots they are copied to, the
    call has no defined result.  A text of one unit or more copied onto
    itself is such a call. *)
Theorem copy_cstr_overlap_undefined (m : mem) dst cap src s :
  is_size_t cap → cap ≠ 0 → cstring_at m src s →
  overlap dst (copied s cap) src (copied s cap) →
  copy_cstr m dst cap src = None.
Proof.
  intros Hsz Hcap Hs Hov.
  assert (Hpos : 0 < cap) by (unfold is_size_t in Hsz; lia).
  destruct dst as [| b o]; [done |].
  rewrite copy_cstr_guard by done.
  rewrite bool_decide_false
    by (intros ->; by apply cstring_at_inv in Hs as (? & ? & ? & ? & _)).
  rewrite (strlen_cstring _ _ _ Hs). simpl.
  rewrite clamp_min by done. unfold memcpy.
  change (Z.to_nat (Z.min (Z.of_nat (length s)) (cap - 1)))
    with (copied s cap).
  rewrite (cstring_at_prefix _ _ _ _ Hs (copied_le_length s cap)). simpl.
  by rewrite decide_True.
Qed.

(** X10: the source is read up to its terminator whatever the capacity: a
    source with no terminator before the end of its object gives a call
    with a buffer no defined result. *)
Theorem copy_cstr_unterminated (m : mem) dst cap b o bs :
  dst ≠ nullptr → cap ≠ 0 →
  m !! b = Some bs → NUL ∉ drop o bs →
  copy_cstr m dst cap (Ptr b o) = None.
Proof.
  intros Hdst Hcap Hbs Hnul. destruct dst as [| bd od]; [done |].
  rewrite copy_cstr_guard by done.
  rewrite bool_decide_false by done.
  unfold strlen. rewrite Hbs. simpl.
  by rewrite scan_nul_None.
Qed.

(** ** Two calls in a row *)

(** X11: a text relayed through a buffer is cut to the smaller capacity:
    after [copy_cstr(dst, cap, src)] and then [copy_cstr(dst2, cap2, dst)],
    with the two buffers apart, the second count is the minimum of the
    first count and [cap2 - 1], and [dst2] holds that many units of the
    source text. *)
Theorem copy_cstr_relay (m : mem) dst cap dst2 cap2 src s :
  is_size_t cap → 0 < cap → is_size_t cap2 → 0 < cap2 →
  valid_buffer m dst cap → valid_buffer m dst2 cap2 →
  ¬ overlap dst2 (Z.to_nat cap2) dst (Z.to_nat cap) →
  cstring_at m src s →
  ¬ overlap dst (copied s cap) src (copied s cap) →
  ∃ n1 m1 n2 m2,
    copy_cstr m dst cap src = Some (n1, m1)
    ∧ copy_cstr m1 dst2 cap2 dst = Some (n2, m2)
    ∧ n2 = Z.min n1 (cap2 - 1)
    ∧ cstring_at m2 dst2 (take (Z.to_nat n2) s).
Proof.
  intros Hsz Hpos Hsz2 Hpos2 Hdst Hdst2 Hapart Hs Hov.
  pose proof Hdst as (b & o & bs & -> & Hbs & Hle)%valid_buffer_inv.
  pose proof (copied_lt_cap s cap Hpos) as Hlt.
  pose proof (length_take_copied s cap) as Hlen.
  set (t := take (copied s cap) s) in *.
  assert (Hfit : (o + S (length t) ≤ length bs)%nat) by lia.
  assert (Hnul : NUL ∉ t) by (apply not_elem_of_take; by destruct Hs).
  pose proof (written_cstring m b o bs t Hfit Hnul) as Ht.
  pose proof (written_valid m b o bs t Hbs Hfit dst2 cap2 Hdst2)
    as (b2 & o2 & bs2 & -> & Hbs2 & Hle2)%valid_buffer_inv.
  pose proof (copied_lt_cap t cap2 Hpos2) as Hlt2.
  pose proof (copied_le_length t cap2) as Hkt.
  pose proof (length_take_copied t cap2) as Hlen2.
  assert (Hov2 : ¬ overlap (Ptr b2 o2) (copied t cap2) (Ptr b o) (copied t cap2))
    by (simpl in *; lia).
  assert (Hn2 : Z.min (Z.of_nat (length t)) (cap2 - 1)
                = Z.min (Z.min (Z.of_nat (length s)) (cap - 1)) (cap2 - 1))
    by (rewrite Hlen; unfold copied; lia).
  eexists _, _, _, _. split_and!.
  - by apply copy_cstr_text.
  - by apply copy_cstr_text.
  - exact Hn2.
  - fold (copied t cap2).
    replace (take (copied t cap2) s) with (take (copied t cap2) t).
    + apply written_cstring; [rewrite Hlen2; lia |].
      by apply not_elem_of_take.
    + subst t. rewrite take_take. f_equal. lia.
Qed.

(** ** When the call is defined *)

(** The slots the call needs are those it writes: the stated capacity only
    bounds the count. *)
Lemma copy_cstr_text_tight (m : mem) b o bs cap src s :
  is_size_t cap → 0 < cap →
  m !! b = Some bs → (o + S (copied s cap) ≤ length bs)%nat →
  cstring_at m src s →
  ¬ overlap (Ptr b o) (copied s cap) src (copied s cap) →
  copy_cstr m (Ptr b o) cap src
  = Some (Z.of_nat (copied s cap),
          <[b := splice bs o (take (copied s cap) s ++ [NUL])]> m).
Proof.
  intros Hsz Hpos Hbs Hle Hs Hov.
  pose proof (copied_le_length s cap) as Hk.
  pose proof (length_take_copied s cap) as Hlen.
  rewrite copy_cstr_guard by lia.
  rewrite bool_decide_false
    by (intros ->; by apply cstring_at_inv in Hs as (? & ? & ? & ? & _)).
  rewrite (strlen_cstring _ _ _ Hs). simpl.
  rewrite clamp_min, <- copied_min by done.
  unfold memcpy. rewrite Nat2Z.id.
  rewrite (cstring_at_prefix _ _ _ _ Hs Hk). simpl.
  rewrite decide_False by done.
  simpl. rewrite Hbs. simpl. rewrite decide_True by lia. simpl.
  rewrite lookup_insert_eq. simpl.
  rewrite decide_True by (rewrite length_splice; lia). simpl.
  rewrite insert_insert_eq. do 3 f_equal.
  rewrite insert_splice by (rewrite length_splice; lia).
  rewrite <- Hlen at 2. apply splice_splice_app. simpl. lia.
Qed.

(** X12: a call with a buffer has a defined result exactly when the source
    is null and the destination has one slot, or the source is a
    terminated text whose [n] units to copy do not overlap their target and
    the destination has [n + 1] slots.  The destination may have fewer
    slots than the stated capacity. *)
Theorem copy_cstr_defined_iff (m : mem) dst cap src :
  is_size_t cap → dst ≠ nullptr → cap ≠ 0 →
  is_Some (copy_cstr m dst cap src) ↔
  src = nullptr ∧ valid_buffer m dst 1
  ∨ ∃ s, cstring_at m src s
         ∧ ¬ overlap dst (copied s cap) src (copied s cap)
         ∧ valid_buffer m dst (Z.of_nat (copied s cap) + 1).
Proof.
  intros Hsz Hdst Hcap. destruct dst as [| b o]; [done |].
  assert (Hpos : 0 < cap) by (unfold is_size_t in Hsz; lia).
  split.
  - intros [[n m'] Hcall]. revert Hcall.
    rewrite copy_cstr_guard by done. case_bool_decide as Hsrc.
    + subst src. simpl.
      destruct (m !! b) as [bs |] eqn:Hbs; simpl; [| done].
      case_decide as Ho; simpl; [| done]. intros _. left. split; [done |].
      eexists. apply load_bytes_Some. exists bs.
      split_and!; [done | simpl; lia | done].
    + destruct (strlen m src) as [L |] eqn:HL; simpl; [| done].
      apply strlen_Some in HL as (s & Hs & ->).
      rewrite clamp_min, <- copied_min by done.
      unfold memcpy. rewrite Nat2Z.id.
      rewrite (cstring_at_prefix _ _ _ _ Hs (copied_le_length s cap)). simpl.
      case_decide as Hov; [done |].
      destruct (m !! b) as [bs |] eqn:Hbs; simpl; [| done].
      case_decide as Hle; simpl; [| done].
      rewrite lookup_insert_eq. simpl.
      case_decide as Hlt; simpl; [| done]. intros _.
      rewrite length_take_copied in *.
      rewrite length_splice in Hlt by (rewrite length_take_copied; lia).
      right. exists s. split_and!; [done | done |].
      eexists. apply load_bytes_Some. exists bs.
      split_and!; [done | lia | done].
  - intros [[-> Hbuf] | (s & Hs & Hov & Hbuf)].
    + apply valid_buffer_inv in Hbuf as (b' & o' & bs & [= <- <-] & Hbs & Hle).
      eexists. apply copy_cstr_null_src; [done | done | lia].
    + apply valid_buffer_inv in Hbuf as (b' & o' & bs & [= <- <-] & Hbs & Hle).
      eexists. apply copy_cstr_text_tight; try done.
      revert Hle. generalize (copied s cap). intros k Hle. lia.
Qed.

(** ** Witnesses of the further properties *)

Lemma copy_cstr_strlen_witness :
  is_size_t 4 ∧ valid_buffer Scenario.m0 Scenario.buf 4
  ∧ source_ok Scenario.m0 Scenario.buf 4 Scenario.lit_abcdef
  ∧ ∃ n m', copy_cstr Scenario.m0 Scenario.buf 4 Scenario.lit_abcdef = Some (n, m')
            ∧ strlen m' Scenario.buf = Some n.
Proof.
  assert (Hsz : is_size_t 4) by (unfold is_size_t, SIZE_MAX; lia).
  assert (Hpos : 0 < 4) by lia.
  assert (Hdst : valid_buffer Scenario.m0 Scenario.buf 4)
    by (eexists; reflexivity).
  assert (Hsrc : source_ok Scenario.m0 Scenario.buf 4 Scenario.lit_abcdef).
  { right. exists ["a"; "b"; "c"; "d"; "e"; "f"]%byte. split.
    - split; [by apply (bool_decide_unpack _) | reflexivity].
    - simpl. lia. }
  split_and!; [exact Hsz | exact Hdst | exact Hsrc |].
  exact (copy_cstr_strlen Scenario.m0 Scenario.buf 4 Scenario.lit_abcdef
           Hsz Hpos Hdst Hsrc).
Defined.

Lemma copy_cstr_no_padding_witness :
  is_size_t 7 ∧ valid_buffer Scenario.m0 Scenario.lit_abcdef 7
  ∧ source_ok Scenario.m0 Scenario.lit_abcdef 7 Scenario.lit_abc
  ∧ ∃ n m', copy_cstr Scenario.m0 Scenario.lit_abcdef 7 Scenario.lit_abc = Some (n, m')
            ∧ ∀ q, ¬ in_buffer Scenario.lit_abcdef (n + 1) q
                   → load m' q = load Scenario.m0 q.
Proof.
  assert (Hsz : is_size_t 7) by (unfold is_size_t, SIZE_MAX; lia).
  assert (Hpos : 0 < 7) by lia.
  assert (Hdst : valid_buffer Scenario.m0 Scenario.lit_abcdef 7)
    by (eexists; reflexivity).
  assert (Hsrc : source_ok Scenario.m0 Scenario.lit_abcdef 7 Scenario.lit_abc).
  { right. exists ["a"; "b"; "c"]%byte. split.
    - split; [by apply (bool_decide_unpack _) | reflexivity].
    - simpl. lia. }
  split_and!; [exact Hsz | exact Hdst | exact Hsrc |].
  exact (copy_cstr_no_padding Scenario.m0 Scenario.lit_abcdef 7 Scenario.lit_abc
           Hsz Hpos Hdst Hsrc).
Defined.

Lemma copy_cstr_sizes_witness :
  copy_cstr Scenario.m0 Scenario.buf 4 Scenario.lit_abcdef
  = Some (3, <[0%nat := Scenario.abc]> Scenario.m0)
  ∧ ∀ b, length <$> (<[0%nat := Scenario.abc]> Scenario.m0) !! b
         = length <$> Scenario.m0 !! b.
Proof.
  assert (Hcall : copy_cstr Scenario.m0 Scenario.buf 4 Scenario.lit_abcdef
                  = Some (3, <[0%nat := Scenario.abc]> Scenario.m0))
    by reflexivity.
  split; [exact Hcall |].
  exact (copy_cstr_sizes Scenario.m0 _ Scenario.buf 4 Scenario.lit_abcdef 3 Hcall).
Defined.

Lemma copy_cstr_fits_witness :
  is_size_t 7 ∧ valid_buffer Scenario.m0 Scenario.lit_abcdef 7
  ∧ cstring_at Scenario.m0 Scenario.lit_abc ["a"; "b"; "c"]%byte
  ∧ ∃ n m', copy_cstr Scenario.m0 Scenario.lit_abcdef 7 Scenario.lit_abc = Some (n, m')
            ∧ (n = 3 ↔ 3 < 7)
            ∧ (3 < 7 → cstring_at m' Scenario.lit_abcdef ["a"; "b"; "c"]%byte).
Proof.
  assert (Hsz : is_size_t 7) by (unfold is_size_t, SIZE_MAX; lia).
  assert (Hpos : 0 < 7) by lia.
  assert (Hdst : valid_buffer Scenario.m0 Scenario.lit_abcdef 7)
    by (eexists; reflexivity).
  assert (Hs : cstring_at Scenario.m0 Scenario.lit_abc ["a"; "b"; "c"]%byte)
    by (split; [by apply (bool_decide_unpack _) | reflexivity]).
  assert (Hov : ¬ overlap Scenario.lit_abcdef (copied ["a"; "b"; "c"]%byte 7)
                  Scenario.lit_abc (copied ["a"; "b"; "c"]%byte 7))
    by (simpl; lia).
  split_and!; [exact Hsz | exact Hdst | exact Hs |].
  exact (copy_cstr_fits Scenario.m0 Scenario.lit_abcdef 7 Scenario.lit_abc _
           Hsz Hpos Hdst Hs Hov).
Defined.

Lemma copy_cstr_source_kept_witness :
  is_size_t 4 ∧ valid_buffer Scenario.m0 Scenario.buf 4
  ∧ cstring_at Scenario.m0 Scenario.lit_abcdef ["a"; "b"; "c"; "d"; "e"; "f"]%byte
  ∧ ∃ n m', copy_cstr Scenario.m0 Scenario.buf 4 Scenario.lit_abcdef = Some (n, m')
            ∧ cstring_at m' Scenario.lit_abcdef ["a"; "b"; "c"; "d"; "e"; "f"]%byte.
Proof.
  assert (Hsz : is_size_t 4) by (unfold is_size_t, SIZE_MAX; lia).
  assert (Hpos : 0 < 4) by lia.
  assert (Hdst : valid_buffer Scenario.m0 Scenario.buf 4)
    by (eexists; reflexivity).
  assert (Hs : cstring_at Scenario.m0 Scenario.lit_abcdef
                 ["a"; "b"; "c"; "d"; "e"; "f"]%byte)
    by (split; [by apply (bool_decide_unpack _) | reflexivity]).
  assert (Hov : ¬ overlap Scenario.buf
                  (S (copied ["a"; "b"; "c"; "d"; "e"; "f"]%byte 4))
                  Scenario.lit_abcdef
                  (S (length ["a"; "b"; "c"; "d"; "e"; "f"]%byte)))
    by (simpl; lia).
  split_and!; [exact Hsz | exact Hdst | exact Hs |].
  exact (copy_cstr_source_kept Scenario.m0 Scenario.buf 4 Scenario.lit_abcdef _
           Hsz Hpos Hdst Hs Hov).
Defined.

(** [char buf[5] = "abcd"; copy_cstr(buf, 5, buf)] *)
Lemma copy_cstr_overlap_undefined_witness :
  is_size_t 5
  ∧ cstring_at Scenario.m_alias (Ptr 0 0) ["a"; "b"; "c"; "d"]%byte
  ∧ overlap (Ptr 0 0) 4 (Ptr 0 0) 4
  ∧ copy_cstr Scenario.m_alias (Ptr 0 0) 5 (Ptr 0 0) = None.
Proof.
  assert (Hsz : is_size_t 5) by (unfold is_size_t, SIZE_MAX; lia).
  assert (Hcap : 5 ≠ 0) by lia.
  assert (Hs : cstring_at Scenario.m_alias (Ptr 0 0) ["a"; "b"; "c"; "d"]%byte)
    by (split; [by apply (bool_decide_unpack _) | reflexivity]).
  assert (Hov : overlap (Ptr 0 0) (copied ["a"; "b"; "c"; "d"]%byte 5)
                  (Ptr 0 0) (copied ["a"; "b"; "c"; "d"]%byte 5))
    by (unfold copied; simpl; lia).
  split_and!; [exact Hsz | exact Hs | exact Hov |].
  exact (copy_cstr_overlap_undefined Scenario.m_alias (Ptr 0 0) 5 (Ptr 0 0) _
           Hsz Hcap Hs Hov).
Defined.

(** A two-byte source object without a terminator, and a capacity of one. *)
Lemma copy_cstr_unterminated_witness :
  let m : mem := {[ 0%nat := Scenario.xxx; 1%nat := ["a"; "b"]%byte ]} in
  Scenario.buf ≠ nullptr ∧ 1 ≠ 0
  ∧ m !! 1%nat = Some ["a"; "b"]%byte
  ∧ (NUL ∉ drop 0 ["a"; "b"]%byte)
  ∧ copy_cstr m Scenario.buf 1 (Ptr 1 0) = None.
Proof.
  intros m.
  assert (Hdst : Scenario.buf ≠ nullptr) by discriminate.
  assert (Hcap : 1 ≠ 0) by lia.
  assert (Hbs : m !! 1%nat = Some ["a"; "b"]%byte) by reflexivity.
  assert (Hnul : NUL ∉ drop 0 ["a"; "b"]%byte)
    by (by apply (bool_decide_unpack _)).
  split_and!; [exact Hdst | exact Hcap | exact Hbs | exact Hnul |].
  exact (copy_cstr_unterminated m Scenario.buf 1 1%nat 0%nat _ Hdst Hcap Hbs Hnul).
Defined.

(** ["abcdef"] into [buf] with capacity 4, then [buf] into the four-slot
    object of block 1 with capacity 2. *)
Lemma copy_cstr_relay_witness :
  let s := ["a"; "b"; "c"; "d"; "e"; "f"]%byte in
  is_size_t 4 ∧ is_size_t 2
  ∧ valid_buffer Scenario.m0 Scenario.buf 4
  ∧ valid_buffer Scenario.m0 (Ptr 1 0) 2
  ∧ cstring_at Scenario.m0 Scenario.lit_abcdef s
  ∧ ∃ n1 m1 n2 m2,
      copy_cstr Scenario.m0 Scenario.buf 4 Scenario.lit_abcdef = Some (n1, m1)
      ∧ copy_cstr m1 (Ptr 1 0) 2 Scenario.buf = Some (n2, m2)
      ∧ n2 = Z.min n1 (2 - 1)
      ∧ cstring_at m2 (Ptr 1 0) (take (Z.to_nat n2) s).
Proof.
  intros s.
  assert (Hsz : is_size_t 4) by (unfold is_size_t, SIZE_MAX; lia).
  assert (Hpos : 0 < 4) by lia.
  assert (Hsz2 : is_size_t 2) by (unfold is_size_t, SIZE_MAX; lia).
  assert (Hpos2 : 0 < 2) by lia.
  assert (Hdst : valid_buffer Scenario.m0 Scenario.buf 4)
    by (eexists; reflexivity).
  assert (Hdst2 : valid_buffer Scenario.m0 (Ptr 1 0) 2)
    by (eexists; reflexivity).
  assert (Hapart : ¬ overlap (Ptr 1 0) (Z.to_nat 2) Scenario.buf (Z.to_nat 4))
    by (simpl; lia).
  assert (Hs : cstring_at Scenario.m0 Scenario.lit_abcdef s)
    by (split; [by apply (bool_decide_unpack _) | reflexivity]).
  assert (Hov : ¬ overlap Scenario.buf (copied s 4) Scenario.lit_abcdef (copied s 4))
    by (simpl; lia).
  split_and!; [exact Hsz | exact Hsz2 | exact Hdst | exact Hdst2 | exact Hs |].
  exact (copy_cstr_relay Scenario.m0 Scenario.buf 4 (Ptr 1 0) 2
           Scenario.lit_abcdef s Hsz Hpos Hsz2 Hpos2 Hdst Hdst2 Hapart Hs Hov).
Defined.

(** A destination of four slots, a stated capacity of eight and a source of
    three units: the call is defined. *)
Lemma copy_cstr_defined_iff_witness :
  is_size_t 8 ∧ Scenario.buf ≠ nullptr ∧ 8 ≠ 0
  ∧ is_Some (copy_cstr Scenario.m0 Scenario.buf 8 Scenario.lit_abc).
Proof.
  assert (Hsz : is_size_t 8) by (unfold is_size_t, SIZE_MAX; lia).
  assert (Hdst : Scenario.buf ≠ nullptr) by discriminate.
  assert (Hcap : 8 ≠ 0) by lia.
  split_and!; [exact Hsz | exact Hdst | exact Hcap |].
  apply (copy_cstr_defined_iff Scenario.m0 Scenario.buf 8 Scenario.lit_abc
           Hsz Hdst Hcap).
  right. exists ["a"; "b"; "c"]%byte. split_and!.
  - split; [by apply (bool_decide_unpack _) | reflexivity].
  - simpl. lia.
  - eexists. reflexivity.
Defined.
